(** * Exponential_backoff_retry: a shallow embedding of src/exp_backoff_retry.h

    The header defines one class, [expbr::Exponential_backoff_retry], with a
    constructor, the call operator [operator()] and the private helper
    [getDelay].  The development below models

    - the three private fields as a record,
    - [unsigned int] and [int] as [Z] with the wrap-around written out,
    - the double-precision operations of [getDelay] as an interface
      ([DoubleOps]): [std::pow] and the conversions come from the C++
    library, not from this repository,
    - the closure run by [work_thread] as an explicit state (the copies of
      [func] and [args...], the promise) threaded through the loop,
    - the caller and the spawned thread as a small interleaving semantics. *)

From stdpp Require Import base tactics option list numbers relations.
From Stdlib Require Import ZArith QArith Qround Qpower Lia.

Open Scope Z_scope.

(** ** Machine integers *)

Module UInt.
(** [unsigned int] is 32 bits wide. *)
Definition modulus : Z := 2 ^ 32.

Definition in_range (n : Z) : Prop := 0 <= n < modulus.

(** [++retryCount] on an [unsigned int]. *)
Definition incr (n : Z) : Z := (n + 1) mod modulus.

(** The implicit conversion [unsigned int -> int] at the call
    [getDelay(retryCount)]: values from 2^31 on come out negative. *)
Definition to_int (n : Z) : Z :=
  if n <? 2 ^ 31 then n else n - modulus.
End UInt.

(** ** Double-precision arithmetic, as used by [getDelay] *)

Class DoubleOps := {
  double : Type;
  (* the conversion [long long -> double] of [_baseDelay.count()] *)
  d_of_ll : Z -> double;
  (* [double * double] *)
  d_mul : double -> double -> double;
  (* [std::pow(double, int)] *)
  d_pow : double -> Z -> double;
  (* [static_cast<long long>(double)] *)
  ll_of_d : double -> Z
}.

(** Exact rational arithmetic: what the operations compute as long as no
    rounding takes place.  The cast truncates towards zero. *)
Definition Qtrunc (q : Q) : Z := Z.quot (Qnum q) (Zpos (Qden q)).

#[export] Instance ExactOps : DoubleOps := {|
  double := Q;
  d_of_ll := inject_Z;
  d_mul := Qmult;
  d_pow := Qpower;
  ll_of_d := Qtrunc
|}.

(** ** The class *)

Section Policy.
Context `{DoubleOps}.

(** The private fields, lines 86-98.  [milliseconds] is a signed 64-bit
    count; only its value is kept.  The constructor (lines 22-27) stores its
    three arguments, so it is the record constructor. *)
Record Exponential_backoff_retry := C_Tor {
  _maxRetries : Z;
  _baseDelay : Z;
  _backoffFactor : double
}.

(** [getDelay(const int retryCount)], lines 107-109. *)
Definition getDelay (this : Exponential_backoff_retry) (retryCount : Z) : Z :=
  ll_of_d (d_mul (d_of_ll (_baseDelay this))
                 (d_pow (_backoffFactor this) retryCount)).
End Policy.

(** ** Results of the model

    [OutOfFuel] is an artefact of the model (the loop is run with a bound on
    its iterations); [FutureError] is the [std::future_error] that
    [std::promise::set_value] throws on a promise that already holds a
    value. *)
Inductive res (X : Type) : Type :=
| Ok (x : X)
| OutOfFuel
| FutureError.
Arguments Ok {X} x.
Arguments OutOfFuel {X}.
Arguments FutureError {X}.

#[export] Instance res_ret : MRet res := fun X x => Ok x.
#[export] Instance res_bind : MBind res := fun X Y k m =>
  match m with
  | Ok x => k x
  | OutOfFuel => OutOfFuel
  | FutureError => FutureError
  end.

(** ** The background work of [operator()] *)

Section Worker.
Context `{DoubleOps}.
(** [T]: the result type; [F]: the state of the callable object; [A]: the
    argument pack. *)
Context {T F A : Type} `{EqDecision T}.

(** What one evaluation of [func(std::forward<Args>(args)...)] does (line
    59).  The lambda is [mutable] and holds its own copies of [func] and of
    [args...]; the call hands the callable references to (or moves out of)
    the copy of the arguments, and the callable's call operator may update
    the callable's own members.  So one invocation maps the two copies to a
    result and their new contents.  The callable is assumed to return. *)
Variable invoke : F -> A -> T * F * A.

(** What the thread does, in program order. *)
Inductive event : Type :=
| Call (args : A) (result : T)
| SleepFor (ms : Z)
| SetValue (v : T).

(** The shared state of [promiseRes] and [futureRes]: empty, or the value. *)
Definition shared_state : Type := option T.

Definition set_value (p : shared_state) (v : T) : res shared_state :=
  match p with
  | None => Ok (Some v)
  | Some _ => FutureError
  end.

(** The captures of the lambda that it can change (lines 50-54); [this] and
    [t] are only read. *)
Record closure := Closure {
  func : F;
  args : A;
  promiseRes : shared_state
}.

(** How control leaves the [do ... while]: by the [return] of line 67, or
    because the condition of line 69 is false. *)
Inductive loop_exit : Type := ByReturn | ByCondition.

(** The locals of the lambda and its captures when the loop is left. *)
Record frame := Frame {
  retryCount : Z;
  result : T;
  captures : closure;
  exit : loop_exit
}.

Variable this : Exponential_backoff_retry.
Variable t : T.

(** Lines 58-69, started with the given value of [retryCount]. *)
Fixpoint do_while (fuel : nat) (retryCount : Z) (c : closure)
  : res (list event * frame) :=
  match fuel with
  | O => OutOfFuel
  | S fuel =>
      let received := args c in
      let '(result, func', args') := invoke (func c) received in
      let called := Call received result in
      let c := Closure func' args' (promiseRes c) in
      if bool_decide (result <> t) then
        let slept := SleepFor (getDelay this (UInt.to_int retryCount)) in
        let retryCount := UInt.incr retryCount in
        if retryCount <? _maxRetries this then
          '(tr, fr) ← do_while fuel retryCount c;
          mret (called :: slept :: tr, fr)
        else
          mret ([called; slept], Frame retryCount result c ByCondition)
      else
        p ← set_value (promiseRes c) result;
        mret ([called; SetValue result],
              Frame retryCount result (Closure (func c) (args c) p) ByReturn)
  end.

(** The body of the lambda, lines 55-73. *)
Definition work_thread (fuel : nat) (c : closure) : res (list event * closure) :=
  '(tr, fr) ← do_while fuel 0 c;
  match exit fr with
  | ByReturn => mret (tr, captures fr)
  | ByCondition =>
      p ← set_value (promiseRes (captures fr)) (result fr);
      mret (tr ++ [SetValue (result fr)],
            Closure (func (captures fr)) (args (captures fr)) p)
  end.

(** The number of iterations after which the condition of line 69 is false
    for the first time when no result equals [t]: [retryCount] is then
    [max(1, _maxRetries)]. *)
Definition bound : nat := Z.to_nat (Z.max 1 (_maxRetries this)).

(** [operator()], lines 46-77, as the caller sees it once [join] has
    returned: the events of the thread and the shared state that the returned
    future reads. *)
Definition operator_call (fuel : nat) (func0 : F) (args0 : A)
  : res (list event * shared_state) :=
  '(tr, c) ← work_thread fuel (Closure func0 args0 None);
  mret (tr, promiseRes c).

(** [futureRes.get()]: the value, once there is one. *)
Definition get (fut : shared_state) : option T := fut.

(** *** Reading a trace *)

Definition results (tr : list event) : list T :=
  omap (fun e => match e with Call _ r => Some r | _ => None end) tr.

Definition received (tr : list event) : list A :=
  omap (fun e => match e with Call a _ => Some a | _ => None end) tr.

Definition sleeps (tr : list event) : list Z :=
  omap (fun e => match e with SleepFor d => Some d | _ => None end) tr.

Definition delivered (tr : list event) : list T :=
  omap (fun e => match e with SetValue v => Some v | _ => None end) tr.

Definition invocations (tr : list event) : nat := length (results tr).

(** *** The callable, iterated *)

(** The two copies after [n] invocations. *)
Fixpoint after (n : nat) (f : F) (a : A) : F * A :=
  match n with
  | O => (f, a)
  | S n => let '(_, f', a') := invoke f a in after n f' a'
  end.

(** What invocation number [n] (counted from 0) receives and returns. *)
Definition nth_args (n : nat) (f : F) (a : A) : A := (after n f a).2.

Definition nth_result (n : nat) (f : F) (a : A) : T :=
  (invoke (after n f a).1 (after n f a).2).1.1.

(** [k] iterations that take the branch of lines 61-63. *)
Fixpoint failures (k : nat) (retryCount : Z) (f : F) (a : A) : list event :=
  match k with
  | O => []
  | S k =>
      let '(r, f', a') := invoke f a in
      Call a r :: SleepFor (getDelay this (UInt.to_int retryCount))
        :: failures k (retryCount + 1) f' a'
  end.

End Worker.

Arguments event : clear implicits.
Arguments closure : clear implicits.
Arguments frame : clear implicits.

(** ** The caller and the thread

    One call of [operator()]: the caller constructs [work_thread] (line 50),
    joins it (line 75) and returns the future (line 77); the thread, once
    started, performs its events one at a time.  [join] returns only when
    the thread has finished. *)

Inductive caller_pc : Type := AtSpawn | AtJoin | AtReturn | Finished.

Inductive obs (T A : Type) : Type :=
| Spawned
| Worked (e : event T A)
| Joined
| FutureReturned.
Arguments Spawned {T A}.
Arguments Worked {T A} e.
Arguments Joined {T A}.
Arguments FutureReturned {T A}.

Record call_state (T A : Type) := CallState {
  pc : caller_pc;
  todo : option (list (event T A));
  log : list (obs T A)
}.
Arguments CallState {T A}.
Arguments pc {T A}.
Arguments todo {T A}.
Arguments log {T A}.

Definition call_init {T A : Type} : call_state T A := CallState AtSpawn None [].

Section Threads.
Context `{DoubleOps}.
Context {T F A : Type} `{EqDecision T}.
Variable invoke : F -> A -> T * F * A.

Inductive call_step (this : Exponential_backoff_retry) (t : T) (f : F) (a : A)
  : call_state T A -> call_state T A -> Prop :=
| step_spawn l fuel tr c :
    work_thread invoke this t fuel (Closure f a None) = Ok (tr, c) ->
    call_step this t f a (CallState AtSpawn None l)
                         (CallState AtJoin (Some tr) (l ++ [Spawned]))
| step_work p e rest l :
    call_step this t f a (CallState p (Some (e :: rest)) l)
                         (CallState p (Some rest) (l ++ [Worked e]))
| step_join l :
    call_step this t f a (CallState AtJoin (Some []) l)
                         (CallState AtReturn (Some []) (l ++ [Joined]))
| step_return w l :
    call_step this t f a (CallState AtReturn w l)
                         (CallState Finished w (l ++ [FutureReturned])).

(** An executor object and the calls made on it, possibly from several
    threads at once.  Each call has its own target, callable and arguments. *)
Record sys := Sys {
  object : Exponential_backoff_retry;
  calls : list (T * F * A * call_state T A)
}.

Inductive sys_step : sys -> sys -> Prop :=
| sys_call s t f a :
    sys_step s (Sys (object s) (calls s ++ [(t, f, a, call_init)]))
| sys_progress s i t f a cs cs' :
    calls s !! i = Some (t, f, a, cs) ->
    call_step (object s) t f a cs cs' ->
    sys_step s (Sys (object s) (<[i := (t, f, a, cs')]> (calls s))).

End Threads.

(** ** Concrete callables *)

Module Examples.

(** [maxRetries = 3], [baseDelay = 100ms], [backoffFactor = 2.0]. *)
Definition policy : Exponential_backoff_retry := C_Tor 3 100 (2 # 1).

(** A callable without state or arguments that always returns [1]. *)
Definition always_one : unit -> unit -> Z * unit * unit :=
  fun _ _ => (1, tt, tt).

(** A callable that returns the elements of a list of results one after the
    other ([0] once the list is used up); the list is its state. *)
Definition scripted : list Z -> unit -> Z * list Z * unit :=
  fun l _ => (hd 0 l, tl l, tt).

(** [[](int& a) { return ++a; }]: takes its argument by reference. *)
Definition pre_increment : unit -> Z -> Z * unit * Z :=
  fun _ a => (a + 1, tt, a + 1).

(** [[](std::vector<int> v) { return v.size(); }] called with a temporary
    vector: the parameter is move-constructed from the copy that the lambda
    holds, which is left empty. *)
Definition size_by_value : unit -> list Z -> Z * unit * list Z :=
  fun _ v => (Z.of_nat (length v), tt, []).

(** [[](int a) { return a; }]: takes its argument by value. *)
Definition identity : unit -> Z -> Z * unit * Z :=
  fun _ a => (a, tt, a).

(** The events of the thread for [always_one] under [policy]. *)
Definition always_one_trace : list (event Z unit) :=
  [Call tt 1; SleepFor 100; Call tt 1; SleepFor 200; Call tt 1; SleepFor 400;
   SetValue 1].

(** The caller of that call when it has the future in hand. *)
Definition returned_state : call_state Z unit :=
  CallState Finished (Some [])
    (Spawned :: (Worked <$> always_one_trace) ++ [Joined; FutureReturned]).

(** Two calls on one object: the first has not started its thread, the
    second has. *)
Definition two_calls : sys (T := Z) (F := unit) (A := unit) :=
  Sys policy
    [(5, tt, tt, call_init);
     (5, tt, tt, CallState AtJoin (Some always_one_trace) [Spawned])].

End Examples.

(** * Properties *)

Lemma uint_incr_small n : 0 <= n -> n + 1 < UInt.modulus -> UInt.incr n = n + 1.
Proof. intros. unfold UInt.incr. apply Z.mod_small. lia. Qed.

Lemma uint_to_int_small n : n < 2 ^ 31 -> UInt.to_int n = n.
Proof.
  intros Hn. unfold UInt.to_int.
  destruct (Z.ltb_spec n (2 ^ 31)); [reflexivity | lia].
Qed.

Section WorkerFacts.
Context `{DoubleOps}.
Context {T F A : Type} `{EqDecision T}.
Variable invoke : F -> A -> T * F * A.
Variable this : Exponential_backoff_retry.
Variable t : T.

#[local] Abbreviation do_while := (do_while invoke this t).
#[local] Abbreviation work_thread := (work_thread invoke this t).
#[local] Abbreviation operator_call := (operator_call invoke this t).
#[local] Abbreviation after := (after invoke).
#[local] Abbreviation nth_args := (nth_args invoke).
#[local] Abbreviation nth_result := (nth_result invoke).
#[local] Abbreviation failures := (failures invoke this).
#[local] Abbreviation bound := (bound this).
#[local] Abbreviation m := (_maxRetries this).

(** *** The iterated callable *)

Lemma after_S n f a :
  after (S n) f a = after n (invoke f a).1.2 (invoke f a).2.
Proof. simpl. destruct (invoke f a) as [[r f'] a']. reflexivity. Qed.

Lemma after_snoc n f a :
  after (S n) f a =
  ((invoke (after n f a).1 (after n f a).2).1.2,
   (invoke (after n f a).1 (after n f a).2).2).
Proof.
  revert f a. induction n as [|n IH]; intros f a.
  - simpl. destruct (invoke f a) as [[r f'] a']. reflexivity.
  - rewrite after_S, IH, <- after_S. reflexivity.
Qed.

Lemma nth_result_0 f a : nth_result 0 f a = (invoke f a).1.1.
Proof. reflexivity. Qed.

Lemma nth_result_S n f a :
  nth_result (S n) f a = nth_result n (invoke f a).1.2 (invoke f a).2.
Proof. unfold nth_result. rewrite after_S. reflexivity. Qed.

Lemma nth_args_S n f a :
  nth_args (S n) f a = nth_args n (invoke f a).1.2 (invoke f a).2.
Proof. unfold nth_args. rewrite after_S. reflexivity. Qed.

(** *** Reading the trace of failed iterations *)

Lemma results_failures k c f a :
  results (failures k c f a) = (fun i => nth_result i f a) <$> seq 0 k.
Proof.
  revert c f a. induction k as [|k IH]; intros c f a; [reflexivity|].
  simpl. destruct (invoke f a) as [[r f'] a'] eqn:E. csimpl.
  fold (results (failures k (c + 1) f' a')). rewrite IH.
  rewrite nth_result_0, E. simpl. f_equal.
  rewrite <- fmap_S_seq, <- list_fmap_compose. apply list_fmap_ext.
  intros _ i _. simpl. rewrite nth_result_S, E. reflexivity.
Qed.

Lemma received_failures k c f a :
  received (failures k c f a) = (fun i => nth_args i f a) <$> seq 0 k.
Proof.
  revert c f a. induction k as [|k IH]; intros c f a; [reflexivity|].
  simpl. destruct (invoke f a) as [[r f'] a'] eqn:E. csimpl.
  fold (received (failures k (c + 1) f' a')). rewrite IH. f_equal.
  rewrite <- fmap_S_seq, <- list_fmap_compose. apply list_fmap_ext.
  intros _ i _. simpl. rewrite nth_args_S, E. reflexivity.
Qed.

Lemma sleeps_failures k c f a :
  sleeps (failures k c f a) =
  (fun i => getDelay this (UInt.to_int (c + Z.of_nat i))) <$> seq 0 k.
Proof.
  revert c f a. induction k as [|k IH]; intros c f a; [reflexivity|].
  simpl. destruct (invoke f a) as [[r f'] a'] eqn:E. csimpl.
  fold (sleeps (failures k (c + 1) f' a')). rewrite IH. f_equal.
  - f_equal. f_equal. lia.
  - rewrite <- fmap_S_seq, <- list_fmap_compose. apply list_fmap_ext.
    intros _ i _. simpl. f_equal. f_equal. lia.
Qed.

Lemma delivered_failures k c f a : delivered (failures k c f a) = [].
Proof.
  revert c f a. induction k as [|k IH]; intros c f a; [reflexivity|].
  simpl. destruct (invoke f a) as [[r f'] a']. simpl. apply IH.
Qed.

(** *** One iteration of the loop *)

Lemma do_while_step fuel c cl :
  do_while (S fuel) c cl =
  let r := (invoke (func cl) (args cl)).1.1 in
  let cl' := Closure (invoke (func cl) (args cl)).1.2
                     (invoke (func cl) (args cl)).2 (promiseRes cl) in
  if decide (r = t) then
    p ← set_value (promiseRes cl) r;
    mret ([Call (args cl) r; SetValue r],
          Frame c r (Closure (func cl') (args cl') p) ByReturn)
  else if UInt.incr c <? m then
    '(tr, fr) ← do_while fuel (UInt.incr c) cl';
    mret (Call (args cl) r
            :: SleepFor (getDelay this (UInt.to_int c)) :: tr, fr)
  else
    mret ([Call (args cl) r; SleepFor (getDelay this (UInt.to_int c))],
          Frame (UInt.incr c) r cl' ByCondition).
Proof.
  simpl. destruct (invoke (func cl) (args cl)) as [[r f'] a']. simpl.
  destruct (decide (r = t)) as [E|E].
  - rewrite bool_decide_eq_false_2 by (intros N; apply N, E). reflexivity.
  - rewrite bool_decide_eq_true_2 by exact E. reflexivity.
Qed.

(** More fuel does not change a result. *)
Lemma do_while_fuel_S fuel c cl x :
  do_while fuel c cl = Ok x -> do_while (S fuel) c cl = Ok x.
Proof.
  revert c cl x. induction fuel as [|fuel IH]; intros c cl x; [discriminate|].
  rewrite (do_while_step fuel), (do_while_step (S fuel)). cbv zeta.
  destruct (decide _); [tauto|].
  destruct (_ <? _); [|tauto].
  destruct (do_while fuel _ _) as [y| |] eqn:E; try discriminate.
  rewrite (IH _ _ _ E). tauto.
Qed.

Lemma do_while_fuel_le fuel fuel' c cl x :
  (fuel <= fuel')%nat -> do_while fuel c cl = Ok x -> do_while fuel' c cl = Ok x.
Proof.
  induction 1 as [|fuel' _ IH]; [tauto|].
  intros E. apply do_while_fuel_S, IH, E.
Qed.

(** [k] failed iterations after which the condition of line 69 holds. *)
Lemma do_while_failures k : forall fuel c f a p,
  0 <= c -> (k <> 0%nat -> c + Z.of_nat k < m) -> m < UInt.modulus ->
  (forall i, (i < k)%nat -> nth_result i f a <> t) ->
  do_while (k + fuel) c (Closure f a p) =
  '(tr, fr) ← do_while fuel (c + Z.of_nat k)
                (Closure (after k f a).1 (after k f a).2 p);
  mret (failures k c f a ++ tr, fr).
Proof.
  induction k as [|k IH]; intros fuel c f a p Hc Hk Hm Hfail.
  - simpl. rewrite Z.add_0_r.
    destruct (do_while fuel c _) as [[tr fr]| |]; reflexivity.
  - change (S k + fuel)%nat with (S (k + fuel)). rewrite do_while_step. simpl.
    pose proof (Hfail 0%nat ltac:(lia)) as H0. rewrite nth_result_0 in H0.
    destruct (decide _) as [E|_]; [contradiction|].
    rewrite uint_incr_small by lia.
    destruct (Z.ltb_spec (c + 1) m) as [_|]; [|lia].
    rewrite IH; try lia.
    + destruct (invoke f a) as [[r f'] a'] eqn:E. simpl.
      replace (c + 1 + Z.of_nat k) with (c + Z.pos (Pos.of_succ_nat k)) by lia.
      destruct (do_while fuel _ _) as [[tr fr]| |]; reflexivity.
    + intros i Hi. rewrite <- nth_result_S. apply Hfail. lia.
Qed.

Lemma failures_S k c f a :
  failures (S k) c f a =
  Call a (invoke f a).1.1
    :: SleepFor (getDelay this (UInt.to_int c))
    :: failures k (c + 1) (invoke f a).1.2 (invoke f a).2.
Proof. simpl. destruct (invoke f a) as [[r f'] a']. reflexivity. Qed.

Lemma failures_snoc k : forall c f a,
  failures (S k) c f a =
  failures k c f a ++
  [Call (nth_args k f a) (nth_result k f a);
   SleepFor (getDelay this (UInt.to_int (c + Z.of_nat k)))].
Proof.
  induction k as [|k IH]; intros c f a.
  - rewrite failures_S, Z.add_0_r. reflexivity.
  - rewrite failures_S, IH, (failures_S k), nth_args_S, nth_result_S.
    replace (c + 1 + Z.of_nat k) with (c + Z.of_nat (S k)) by lia.
    reflexivity.
Qed.

(** The loop when invocation [k] (from 0) is the first to return [t]. *)
Lemma do_while_match k fuel f a :
  UInt.in_range m -> (k < bound)%nat -> (k < fuel)%nat ->
  (forall i, (i < k)%nat -> nth_result i f a <> t) ->
  nth_result k f a = t ->
  do_while fuel 0 (Closure f a None) =
  Ok (failures k 0 f a ++ [Call (nth_args k f a) t; SetValue t],
      Frame (Z.of_nat k) t
            (Closure (after (S k) f a).1 (after (S k) f a).2 (Some t))
            ByReturn).
Proof.
  intros [Hm0 Hm] Hk Hfuel Hfail Hmatch. unfold bound in Hk.
  replace fuel with (k + S (fuel - S k))%nat by lia.
  rewrite do_while_failures; [|lia|lia|lia|exact Hfail].
  rewrite do_while_step. cbv zeta. simpl func. simpl args. simpl promiseRes.
  fold (nth_result k f a). rewrite Hmatch.
  destruct (decide (t = t)) as [_|N]; [|contradiction].
  rewrite after_snoc. reflexivity.
Qed.

(** The loop when none of the first [bound] invocations returns [t]. *)
Lemma do_while_exhaust fuel f a p :
  UInt.in_range m -> (bound <= fuel)%nat ->
  (forall i, (i < bound)%nat -> nth_result i f a <> t) ->
  do_while fuel 0 (Closure f a p) =
  Ok (failures bound 0 f a,
      Frame (Z.of_nat bound) (nth_result (bound - 1) f a)
            (Closure (after bound f a).1 (after bound f a).2 p)
            ByCondition).
Proof.
  intros [Hm0 Hm] Hfuel Hfail. unfold UInt.modulus in Hm.
  assert (Hb : exists k, bound = S k) by (exists (bound - 1)%nat; unfold bound; lia).
  destruct Hb as [k Hb]. rewrite Hb in *.
  assert (Hk : Z.of_nat (S k) = Z.max 1 m) by (rewrite <- Hb; unfold bound; lia).
  replace fuel with (k + S (fuel - S k))%nat by lia.
  rewrite do_while_failures;
    [|lia|lia|unfold UInt.modulus; lia|intros i Hi; apply Hfail; lia].
  rewrite do_while_step. cbv zeta. simpl func. simpl args. simpl promiseRes.
  fold (nth_result k f a). fold (nth_args k f a).
  destruct (decide (nth_result k f a = t)) as [E|_];
    [exfalso; apply (Hfail k); [lia|exact E]|].
  rewrite uint_incr_small by (unfold UInt.modulus; lia).
  destruct (Z.ltb_spec (0 + Z.of_nat k + 1) m) as [|_]; [lia|].
  rewrite failures_snoc, after_snoc.
  replace (S k - 1)%nat with k by lia.
  replace (0 + Z.of_nat k + 1) with (Z.of_nat (S k)) by lia.
  reflexivity.
Qed.

Lemma work_thread_match k fuel f a :
  UInt.in_range m -> (k < bound)%nat -> (k < fuel)%nat ->
  (forall i, (i < k)%nat -> nth_result i f a <> t) ->
  nth_result k f a = t ->
  work_thread fuel (Closure f a None) =
  Ok (failures k 0 f a ++ [Call (nth_args k f a) t; SetValue t],
      Closure (after (S k) f a).1 (after (S k) f a).2 (Some t)).
Proof.
  intros Hm Hk Hfuel Hfail Hmatch. unfold work_thread.
  rewrite (do_while_match k) by assumption. reflexivity.
Qed.

Lemma work_thread_exhaust fuel f a :
  UInt.in_range m -> (bound <= fuel)%nat ->
  (forall i, (i < bound)%nat -> nth_result i f a <> t) ->
  work_thread fuel (Closure f a None) =
  Ok (failures bound 0 f a ++ [SetValue (nth_result (bound - 1) f a)],
      Closure (after bound f a).1 (after bound f a).2
              (Some (nth_result (bound - 1) f a))).
Proof.
  intros Hm Hfuel Hfail. unfold work_thread.
  rewrite do_while_exhaust by assumption. reflexivity.
Qed.

(** Either some invocation below [n] is the first to return [t], or none
    of them does. *)
Lemma first_match_or_none n f a :
  (exists k, (k < n)%nat /\ (forall i, (i < k)%nat -> nth_result i f a <> t)
             /\ nth_result k f a = t)
  \/ (forall i, (i < n)%nat -> nth_result i f a <> t).
Proof.
  induction n as [|n [(k & Hk & Hfail & Hmatch)|Hnone]].
  - right. intros i Hi. lia.
  - left. exists k. split; [lia|]. split; assumption.
  - destruct (decide (nth_result n f a = t)) as [E|E].
    + left. exists n. split; [lia|]. split; assumption.
    + right. intros i Hi. destruct (decide (i = n)) as [->|Hne]; [exact E|].
      apply Hnone. lia.
Qed.

(** *** Every call of [operator()] *)

Lemma operator_call_cases fuel f a :
  UInt.in_range m -> (bound <= fuel)%nat ->
  (exists k, (k < bound)%nat
     /\ (forall i, (i < k)%nat -> nth_result i f a <> t)
     /\ nth_result k f a = t
     /\ operator_call fuel f a =
        Ok (failures k 0 f a ++ [Call (nth_args k f a) t; SetValue t], Some t))
  \/ ((forall i, (i < bound)%nat -> nth_result i f a <> t)
     /\ operator_call fuel f a =
        Ok (failures bound 0 f a ++ [SetValue (nth_result (bound - 1) f a)],
            Some (nth_result (bound - 1) f a))).
Proof.
  intros Hm Hfuel. unfold operator_call.
  destruct (first_match_or_none bound f a) as [(k & Hk & Hfail & Hmatch)|Hnone].
  - left. exists k. repeat split; try assumption.
    rewrite (work_thread_match k) by (assumption || lia). reflexivity.
  - right. split; [assumption|].
    rewrite work_thread_exhaust by assumption. reflexivity.
Qed.

Lemma results_app (l1 l2 : list (event T A)) :
  results (l1 ++ l2) = results l1 ++ results l2.
Proof. apply omap_app. Qed.

Lemma received_app (l1 l2 : list (event T A)) :
  received (l1 ++ l2) = received l1 ++ received l2.
Proof. apply omap_app. Qed.

Lemma sleeps_app (l1 l2 : list (event T A)) :
  sleeps (l1 ++ l2) = sleeps l1 ++ sleeps l2.
Proof. apply omap_app. Qed.

Lemma delivered_app (l1 l2 : list (event T A)) :
  delivered (l1 ++ l2) = delivered l1 ++ delivered l2.
Proof. apply omap_app. Qed.

Lemma bound_pos : (1 <= bound)%nat.
Proof. unfold bound. lia. Qed.

Lemma bound_max : Z.of_nat bound = Z.max 1 m.
Proof. unfold bound. lia. Qed.

Lemma invocations_failures k c f a : invocations (failures k c f a) = k.
Proof.
  unfold invocations. rewrite results_failures, length_fmap. apply length_seq.
Qed.

(** In every call the callable is invoked at least once and at most
    [max(1, maxRetries)] times, hence at most [maxRetries + 1] times. *)
Lemma invocations_bounds fuel f a :
  UInt.in_range m -> (bound <= fuel)%nat ->
  exists tr fut, operator_call fuel f a = Ok (tr, fut)
    /\ 1 <= Z.of_nat (invocations tr) <= Z.max 1 m
    /\ Z.of_nat (invocations tr) <= m + 1.
Proof.
  intros Hm Hfuel. pose proof bound_max as Hb. pose proof bound_pos as Hp.
  destruct (operator_call_cases fuel f a Hm Hfuel)
    as [(k & Hk & _ & _ & ->)|[_ ->]]; eexists _, _; (split; [reflexivity|]);
    unfold invocations; rewrite results_app, length_app, results_failures,
      length_fmap, length_seq; simpl; destruct Hm; lia.
Qed.

(** C1: the code departs from the claim.  When no result of the callable
    equals the target, one call of [operator()] invokes the callable exactly
    [max(1, maxRetries)] times: [maxRetries] times for [maxRetries >= 1],
    which is one fewer than the [maxRetries + 1] of the claim. *)
Theorem C1_invocations_when_never_matching fuel f a :
  UInt.in_range m -> (bound <= fuel)%nat ->
  (forall n, nth_result n f a <> t) ->
  exists tr fut, operator_call fuel f a = Ok (tr, fut)
    /\ Z.of_nat (invocations tr) = Z.max 1 m
    /\ (1 <= m -> Z.of_nat (invocations tr) <> m + 1).
Proof.
  intros Hm Hfuel Hnever. pose proof bound_max as Hb.
  destruct (operator_call_cases fuel f a Hm Hfuel)
    as [(k & _ & _ & Hmatch & _)|[_ ->]].
  - exfalso. exact (Hnever k Hmatch).
  - eexists _, _. split; [reflexivity|].
    unfold invocations. rewrite results_app, length_app.
    fold (invocations (failures bound 0 f a)).
    rewrite invocations_failures. simpl. lia.
Qed.

(** C3: the code departs from the claim.  When no result of the callable
    equals the target, the thread sleeps after its last invocation: the
    trace ends with that invocation, a sleep of [getDelay] at the last value
    of the counter below [max(1, maxRetries)], and [set_value]. *)
Theorem C3_sleep_after_last_invocation fuel f a :
  UInt.in_range m -> (bound <= fuel)%nat ->
  (forall n, nth_result n f a <> t) ->
  exists tr fut pre x r, operator_call fuel f a = Ok (tr, fut)
    /\ tr = pre ++ [Call x r;
                    SleepFor (getDelay this (UInt.to_int (Z.max 1 m - 1)));
                    SetValue r]
    /\ length (sleeps tr) = invocations tr.
Proof.
  intros Hm Hfuel Hnever. pose proof bound_max as Hb.
  destruct (operator_call_cases fuel f a Hm Hfuel)
    as [(k & _ & _ & Hmatch & _)|[_ ->]].
  - exfalso. exact (Hnever k Hmatch).
  - assert (Hk : exists k, bound = S k)
      by (exists (bound - 1)%nat; pose proof bound_pos; lia).
    destruct Hk as [k Hk]. rewrite Hk in *.
    eexists _, _, (failures k 0 f a), _, _. split; [reflexivity|]. split.
    + rewrite failures_snoc, <- app_assoc. simpl.
      replace (S k - 1)%nat with k by lia.
      replace (Z.max 1 m - 1) with (0 + Z.of_nat k) by lia.
      replace (k - 0)%nat with k by lia. reflexivity.
    + unfold invocations.
      rewrite sleeps_app, results_app, sleeps_failures, results_failures.
      rewrite !length_app, !length_fmap. reflexivity.
Qed.

(** What the callable returns and receives over a whole trace. *)
Lemma results_matched k f a :
  results (failures k 0 f a ++ [Call (nth_args k f a) t; SetValue t]) =
  ((fun i => nth_result i f a) <$> seq 0 k) ++ [t].
Proof. rewrite results_app, results_failures. reflexivity. Qed.

Lemma results_exhausted k f a v :
  results (failures k 0 f a ++ [SetValue v]) =
  (fun i => nth_result i f a) <$> seq 0 k.
Proof. rewrite results_app, results_failures. apply app_nil_r. Qed.

Lemma last_fmap_seq {X} (g : nat -> X) k :
  (1 <= k)%nat -> last (g <$> seq 0 k) = Some (g (k - 1)%nat).
Proof.
  intros Hk. destruct k as [|k]; [lia|].
  rewrite seq_S, fmap_snoc. replace (S k - 1)%nat with k by lia. apply last_snoc.
Qed.

Lemma elem_of_first_results k f a r :
  (forall i, (i < k)%nat -> nth_result i f a <> t) ->
  r ∈ (fun i => nth_result i f a) <$> seq 0 k -> r <> t.
Proof.
  intros Hfail Hr. apply list_elem_of_fmap in Hr as (i & Hr & Hi). subst r.
  apply elem_of_seq in Hi. apply Hfail. lia.
Qed.

(** X9: if the first result that equals the target is that of invocation [k + 1]
    and [k + 1 <= max(1, maxRetries)], the callable is invoked [k + 1] times,
    the thread sleeps [k] times, nothing happens between the matching
    invocation and [set_value], and the future holds the target. *)
Lemma early_termination k fuel f a :
  UInt.in_range m -> (k < bound)%nat -> (bound <= fuel)%nat ->
  (forall i, (i < k)%nat -> nth_result i f a <> t) ->
  nth_result k f a = t ->
  exists tr pre x, operator_call fuel f a = Ok (tr, Some t)
    /\ tr = pre ++ [Call x t; SetValue t]
    /\ invocations tr = S k
    /\ sleeps tr =
       (fun i => getDelay this (UInt.to_int (Z.of_nat i))) <$> seq 0 k.
Proof.
  intros Hm Hk Hfuel Hfail Hmatch. unfold operator_call.
  rewrite (work_thread_match k) by (assumption || lia).
  eexists _, _, _. split; [reflexivity|]. split; [reflexivity|]. split.
  - unfold invocations. rewrite results_matched, length_app, length_fmap, length_seq.
    simpl. lia.
  - rewrite sleeps_app, sleeps_failures, app_nil_r. reflexivity.
Qed.

(** C6: the code departs from the claim.  With [maxRetries = m >= 1] and a
    callable whose first result equal to the target is that of invocation
    [m + 1], the callable is invoked only [m] times and the future holds a
    value different from the target. *)
Theorem C6_match_on_invocation_after_the_last fuel f a :
  UInt.in_range m -> 1 <= m -> (bound <= fuel)%nat ->
  (forall i, (i < Z.to_nat m)%nat -> nth_result i f a <> t) ->
  nth_result (Z.to_nat m) f a = t ->
  exists tr v, operator_call fuel f a = Ok (tr, Some v)
    /\ Z.of_nat (invocations tr) = m
    /\ delivered tr = [v]
    /\ v <> t.
Proof.
  intros Hm H1 Hfuel Hfail Hmatch. pose proof bound_max as Hb.
  assert (Hbm : bound = Z.to_nat m) by lia.
  destruct (operator_call_cases fuel f a Hm Hfuel)
    as [(k & Hk & _ & Hk' & _)|[_ ->]].
  - exfalso. apply (Hfail k); [lia|exact Hk'].
  - eexists _, _. split; [reflexivity|]. split; [|split].
    + unfold invocations. rewrite results_exhausted, length_fmap, length_seq. lia.
    + rewrite delivered_app, delivered_failures. reflexivity.
    + apply Hfail. lia.
Qed.

(** Every call, in terms of the callable: the callable is invoked [n] times,
    [1 <= n <= max(1, maxRetries)], the results in the trace are its first
    [n] results, none of the first [n - 1] equals the target, the last one
    is set once, as the last event, and is what the future holds; and either
    it equals the target or [n = max(1, maxRetries)]. *)
Lemma operator_call_anchored fuel f a :
  UInt.in_range m -> (bound <= fuel)%nat ->
  exists tr n, operator_call fuel f a = Ok (tr, Some (nth_result (n - 1) f a))
    /\ (1 <= n <= bound)%nat
    /\ results tr = (fun i => nth_result i f a) <$> seq 0 n
    /\ delivered tr = [nth_result (n - 1) f a]
    /\ last tr = Some (SetValue (nth_result (n - 1) f a))
    /\ (forall i, (i < n - 1)%nat -> nth_result i f a <> t)
    /\ (nth_result (n - 1) f a = t
        \/ (nth_result (n - 1) f a <> t /\ n = bound)).
Proof.
  intros Hm Hfuel. pose proof bound_pos as Hp.
  destruct (operator_call_cases fuel f a Hm Hfuel)
    as [(k & Hk & Hfail & Hmatch & ->)|[Hnone ->]].
  - exists (failures k 0 f a ++ [Call (nth_args k f a) t; SetValue t]), (S k).
    replace (S k - 1)%nat with k by lia. rewrite Hmatch.
    split; [reflexivity|]. split; [lia|].
    split; [rewrite results_matched, seq_S, fmap_snoc, Nat.add_0_l, Hmatch;
            reflexivity|].
    split; [rewrite delivered_app, delivered_failures; reflexivity|].
    split; [rewrite last_app_cons; reflexivity|].
    split; [exact Hfail|]. left. reflexivity.
  - eexists _, bound. split; [reflexivity|]. split; [lia|].
    split; [apply results_exhausted|].
    split; [rewrite delivered_app, delivered_failures; reflexivity|].
    split; [apply last_snoc|].
    split; [intros i Hi; apply Hnone; lia|].
    right. split; [apply Hnone; lia|reflexivity].
Qed.

(** C4: every call invokes the callable at least once, and the results in
    its trace are the results of the callable's successive invocations.
    When none of them equals the target, the call ends without error,
    exactly one value is set, and the value read through the future is the
    result of the last invocation performed.  In terms of the callable: if
    none of its first [max(1, maxRetries)] results equals the target, it is
    invoked that many times and the future holds the last of these
    results. *)
Theorem C4_exhaustion_delivers_last_result fuel f a :
  UInt.in_range m -> (bound <= fuel)%nat ->
  exists tr fut, operator_call fuel f a = Ok (tr, fut)
    /\ (1 <= invocations tr)%nat
    /\ results tr = (fun i => nth_result i f a) <$> seq 0 (invocations tr)
    /\ ((forall r, r ∈ results tr -> r <> t) ->
        last (results tr) = Some (nth_result (invocations tr - 1) f a)
        /\ get fut = Some (nth_result (invocations tr - 1) f a)
        /\ delivered tr = [nth_result (invocations tr - 1) f a])
    /\ ((forall i, (i < bound)%nat -> nth_result i f a <> t) ->
        invocations tr = bound
        /\ get fut = Some (nth_result (bound - 1) f a)).
Proof.
  intros Hm Hfuel.
  destruct (operator_call_anchored fuel f a Hm Hfuel)
    as (tr & n & Hrun & Hn & Hres & Hdel & _ & Hfail & Hlast).
  assert (Hinv : invocations tr = n)
    by (unfold invocations; rewrite Hres, length_fmap, length_seq; reflexivity).
  exists tr, (Some (nth_result (n - 1) f a)). rewrite Hinv.
  split; [exact Hrun|]. split; [lia|]. split; [exact Hres|]. split.
  - intros _. split; [|split; [reflexivity|exact Hdel]].
    rewrite Hres. apply (last_fmap_seq (fun i => nth_result i f a)). lia.
  - intros Hnone. destruct Hlast as [E|[_ ->]]; [|split; reflexivity].
    exfalso. apply (Hnone (n - 1)%nat); [lia|exact E].
Qed.

(** C8: every run of the thread, whether it ends by a match or by
    exhaustion, ends with its only [set_value], and the call raises no
    error.  The callable has then been invoked [n] times,
    [1 <= n <= max(1, maxRetries)]; the value set is the result of the
    callable's [n]-th invocation, the last one made; none of the results
    before it equals the target; and either it equals the target, or it
    differs from it and [n = max(1, maxRetries)]. *)
Theorem C8_promise_set_exactly_once fuel f a :
  UInt.in_range m -> (bound <= fuel)%nat ->
  exists tr fut v, operator_call fuel f a = Ok (tr, fut)
    /\ delivered tr = [v]
    /\ fut = Some v
    /\ last tr = Some (SetValue v)
    /\ last (results tr) = Some v
    /\ (v = t \/ (forall r, r ∈ results tr -> r <> t))
    /\ (1 <= invocations tr <= bound)%nat
    /\ results tr = (fun i => nth_result i f a) <$> seq 0 (invocations tr)
    /\ v = nth_result (invocations tr - 1) f a
    /\ (forall i, (i < invocations tr - 1)%nat -> nth_result i f a <> t)
    /\ (v = t \/ (v <> t /\ invocations tr = bound)).
Proof.
  intros Hm Hfuel.
  destruct (operator_call_anchored fuel f a Hm Hfuel)
    as (tr & n & Hrun & Hn & Hres & Hdel & Hend & Hfail & Hlast).
  assert (Hinv : invocations tr = n)
    by (unfold invocations; rewrite Hres, length_fmap, length_seq; reflexivity).
  exists tr, (Some (nth_result (n - 1) f a)), (nth_result (n - 1) f a).
  rewrite Hinv.
  split; [exact Hrun|]. split; [exact Hdel|]. split; [reflexivity|].
  split; [exact Hend|].
  split; [rewrite Hres; apply (last_fmap_seq (fun i => nth_result i f a)); lia|].
  split.
  { destruct Hlast as [E|[Hne _]]; [left; exact E|right].
    intros r Hr. rewrite Hres in Hr.
    apply list_elem_of_fmap in Hr as (i & -> & Hi). rewrite elem_of_seq in Hi.
    destruct (decide (i = n - 1)%nat) as [->|Hi']; [exact Hne|].
    apply Hfail. lia. }
  split; [exact Hn|]. split; [exact Hres|]. split; [reflexivity|].
  split; [exact Hfail|exact Hlast].
Qed.

(** *** The sleeps of a call *)

(** Sleep number [i] (from 0) of a call lasts [getDelay] of the counter
    [i], after the conversion to [int]; there are at most
    [max(1, maxRetries)] of them. *)
Lemma sleeps_operator_call fuel f a :
  UInt.in_range m -> (bound <= fuel)%nat ->
  exists tr fut n, operator_call fuel f a = Ok (tr, fut)
    /\ (n <= bound)%nat
    /\ sleeps tr =
       (fun i => getDelay this (UInt.to_int (Z.of_nat i))) <$> seq 0 n.
Proof.
  intros Hm Hfuel.
  destruct (operator_call_cases fuel f a Hm Hfuel)
    as [(k & Hk & _ & _ & ->)|[_ ->]].
  - eexists _, _, k. split; [reflexivity|]. split; [lia|].
    rewrite sleeps_app, sleeps_failures. apply app_nil_r.
  - eexists _, _, bound. split; [reflexivity|]. split; [lia|].
    rewrite sleeps_app, sleeps_failures. apply app_nil_r.
Qed.

(** *** The arguments the callable receives *)

Lemma received_operator_call fuel f a :
  UInt.in_range m -> (bound <= fuel)%nat ->
  exists tr fut n, operator_call fuel f a = Ok (tr, fut)
    /\ (1 <= n)%nat
    /\ received tr = (fun i => nth_args i f a) <$> seq 0 n.
Proof.
  intros Hm Hfuel.
  destruct (operator_call_cases fuel f a Hm Hfuel)
    as [(k & _ & _ & _ & ->)|[_ ->]].
  - eexists _, _, (S k). split; [reflexivity|]. split; [lia|].
    rewrite received_app, received_failures, seq_S, fmap_snoc. reflexivity.
  - eexists _, _, bound. split; [reflexivity|]. split; [apply bound_pos|].
    rewrite received_app, received_failures. apply app_nil_r.
Qed.

Lemma nth_args_preserved i : forall f a,
  (forall f' a', (invoke f' a').2 = a') -> nth_args i f a = a.
Proof.
  induction i as [|i IH]; intros f a Hpres; [reflexivity|].
  rewrite nth_args_S, Hpres. apply IH, Hpres.
Qed.

(** C7: the code departs from the claim.  Only the first invocation of a
    call is sure to receive the arguments as they were captured: the
    callable is handed the one copy that the lambda holds, and invocation
    [i + 1] receives that copy as the [i] evaluations of the call before it
    left it, after whatever the callable did to it through a reference and
    after it was moved from. *)
Theorem C7_arguments_received_by_invocations fuel f a :
  UInt.in_range m -> (bound <= fuel)%nat ->
  exists tr fut, operator_call fuel f a = Ok (tr, fut)
    /\ (1 <= invocations tr)%nat
    /\ head (received tr) = Some a
    /\ received tr = (fun i => nth_args i f a) <$> seq 0 (invocations tr).
Proof.
  intros Hm Hfuel.
  destruct (operator_call_anchored fuel f a Hm Hfuel)
    as (tr & n & Hrun & Hn & Hres & _).
  destruct (received_operator_call fuel f a Hm Hfuel)
    as (tr' & fut' & n' & Hrun' & Hn' & Hrec).
  rewrite Hrun in Hrun'. injection Hrun' as <- <-.
  assert (Hlen : n' = n).
  { assert (Hl : length (received tr) = length (results tr)).
    { unfold received, results. clear. induction tr as [|[x r|d|v] tr IH];
        simpl; [reflexivity| |exact IH|exact IH].
      f_equal. exact IH. }
    rewrite Hrec, Hres, !length_fmap, !length_seq in Hl. exact Hl. }
  subst n'.
  assert (Hinv : invocations tr = n)
    by (unfold invocations; rewrite Hres, length_fmap, length_seq; reflexivity).
  exists tr, (Some (nth_result (n - 1) f a)). rewrite Hinv.
  split; [exact Hrun|]. split; [lia|]. split; [|exact Hrec].
  rewrite Hrec. destruct n as [|n]; [lia|]. reflexivity.
Qed.

(** *** The loop *)

Lemma do_while_cases fuel f a :
  UInt.in_range m -> (bound <= fuel)%nat ->
  (exists k, (k < bound)%nat
     /\ (forall i, (i < k)%nat -> nth_result i f a <> t)
     /\ nth_result k f a = t
     /\ do_while fuel 0 (Closure f a None) =
        Ok (failures k 0 f a ++ [Call (nth_args k f a) t; SetValue t],
            Frame (Z.of_nat k) t
                  (Closure (after (S k) f a).1 (after (S k) f a).2 (Some t))
                  ByReturn))
  \/ ((forall i, (i < bound)%nat -> nth_result i f a <> t)
     /\ do_while fuel 0 (Closure f a None) =
        Ok (failures bound 0 f a,
            Frame (Z.of_nat bound) (nth_result (bound - 1) f a)
                  (Closure (after bound f a).1 (after bound f a).2 None)
                  ByCondition)).
Proof.
  intros Hm Hfuel.
  destruct (first_match_or_none bound f a) as [(k & Hk & Hfail & Hmatch)|Hnone].
  - left. exists k. repeat split; try assumption.
    apply do_while_match; assumption || lia.
  - right. split; [assumption|]. apply do_while_exhaust; assumption.
Qed.

Lemma filter_all {X} (P : X -> Prop) `{forall x, Decision (P x)} (l : list X) :
  (forall x, x ∈ l -> P x) -> filter P l = l.
Proof.
  induction l as [|x l IH]; intros Hall; [reflexivity|].
  rewrite filter_cons_True by (apply Hall; left).
  f_equal. apply IH. intros y Hy. apply Hall. right. exact Hy.
Qed.

(** C10: whatever the callable returns, the loop ends, after at least one
    and at most [max(1, maxRetries)] iterations.  The counter, started at 0,
    ends as the number of iterations whose result differs from the target.
    Every iteration that is followed by another one had a result different
    from the target and left the counter below [maxRetries]; the last
    iteration either returned the target, or left the counter not below
    [maxRetries]. *)
Theorem C10_retry_loop_terminates fuel f a :
  UInt.in_range m -> (bound <= fuel)%nat ->
  exists tr fr, do_while fuel 0 (Closure f a None) = Ok (tr, fr)
    /\ 1 <= Z.of_nat (invocations tr) <= Z.max 1 m
    /\ retryCount fr =
       Z.of_nat (length (filter (fun r => r <> t) (results tr)))
    /\ (forall i r, (S i < invocations tr)%nat -> results tr !! i = Some r ->
        r <> t /\ Z.of_nat (S i) < m)
    /\ last (results tr) = Some (result fr)
    /\ match exit fr with
       | ByReturn => result fr = t
       | ByCondition => result fr <> t /\ ~ retryCount fr < m
       end.
Proof.
  intros Hm Hfuel. pose proof bound_max as Hb. pose proof bound_pos as Hp.
  destruct (do_while_cases fuel f a Hm Hfuel)
    as [(k & Hk & Hfail & Hmatch & ->)|[Hnone ->]]; eexists _, _;
    (split; [reflexivity|]); simpl.
  - unfold invocations. rewrite results_matched, length_app, length_fmap, length_seq.
    split; [simpl; lia|]. split; [|split; [|split]].
    + rewrite filter_app, filter_all by (intros r; apply elem_of_first_results, Hfail).
      rewrite filter_cons_False by (intros N; apply N; reflexivity).
      rewrite filter_nil, app_nil_r, length_fmap, length_seq. reflexivity.
    + simpl. intros i r Hi Hr.
      rewrite lookup_app_l in Hr by (rewrite length_fmap, length_seq; lia).
      apply list_lookup_fmap_Some in Hr as (j & -> & Hj).
      apply lookup_seq in Hj as [-> _]. split; [apply Hfail; lia|lia].
    + apply last_snoc.
    + reflexivity.
  - unfold invocations.
    rewrite results_failures, length_fmap, length_seq.
    split; [lia|]. split; [|split; [|split]].
    + rewrite filter_all by (intros r; apply elem_of_first_results, Hnone).
      rewrite length_fmap, length_seq. reflexivity.
    + intros i r Hi Hr.
      apply list_lookup_fmap_Some in Hr as (j & -> & Hj).
      apply lookup_seq in Hj as [-> _]. split; [apply Hnone; lia|lia].
    + apply (last_fmap_seq (fun i => nth_result i f a)), bound_pos.
    + split; [apply Hnone; lia|lia].
Qed.

End WorkerFacts.

(** ** Delays in exact arithmetic *)

Lemma Qtrunc_floor (q : Q) : (0 <= q)%Q -> Qtrunc q = Qfloor q.
Proof.
  destruct q as [n d]. unfold Qle, Qtrunc, Qfloor. simpl. intros Hq.
  apply Z.quot_div_nonneg; lia.
Qed.

(** Without rounding, and for a delay and a factor that are not negative,
    [getDelay] is the floor of [base_delay * factor ^ n]. *)
Lemma getDelay_exact max_retries base_delay (factor : Q) n :
  0 <= base_delay -> (0 <= factor)%Q ->
  getDelay (C_Tor max_retries base_delay factor) n =
  Qfloor (inject_Z base_delay * factor ^ n)%Q.
Proof.
  intros Hb Hf. unfold getDelay. simpl. apply Qtrunc_floor.
  apply Qmult_le_0_compat; [|apply Qpower_0_le, Hf].
  unfold Qle. simpl. lia.
Qed.

(** ** The caller and the thread *)

Section ThreadFacts.
Context `{DoubleOps}.
Context {T F A : Type} `{EqDecision T}.
Variable invoke : F -> A -> T * F * A.

#[local] Abbreviation work_thread := (work_thread invoke).
#[local] Abbreviation call_step := (call_step invoke).
#[local] Abbreviation sys_step := (sys_step invoke).

Lemma work_thread_fuel_le this t fuel fuel' c x :
  (fuel <= fuel')%nat ->
  work_thread this t fuel c = Ok x -> work_thread this t fuel' c = Ok x.
Proof.
  intros Hle. unfold work_thread.
  destruct (do_while invoke this t fuel 0 c) as [y| |] eqn:E; try discriminate.
  rewrite (do_while_fuel_le invoke this t fuel fuel' 0 c y Hle E). tauto.
Qed.

(** The events of the thread do not depend on the fuel of the model. *)
Lemma work_thread_deterministic this t fuel1 fuel2 c x1 x2 :
  work_thread this t fuel1 c = Ok x1 -> work_thread this t fuel2 c = Ok x2 ->
  x1 = x2.
Proof.
  intros E1 E2.
  apply (work_thread_fuel_le _ _ _ (Nat.max fuel1 fuel2)) in E1; [|lia].
  apply (work_thread_fuel_le _ _ _ (Nat.max fuel1 fuel2)) in E2; [|lia].
  congruence.
Qed.

Section OneCall.
Variable this : Exponential_backoff_retry.
Variable t : T.
Variable f : F.
Variable a : A.

(** What holds at each point of the caller, for the trace [tr] of the
    thread. *)
Lemma call_invariant s :
  rtc (call_step this t f a) call_init s ->
  match pc s with
  | AtSpawn => todo s = None /\ log s = []
  | AtJoin =>
      exists fuel tr c done rest,
        work_thread this t fuel (Closure f a None) = Ok (tr, c)
        /\ tr = done ++ rest /\ todo s = Some rest
        /\ log s = Spawned :: (Worked <$> done)
  | AtReturn =>
      exists fuel tr c,
        work_thread this t fuel (Closure f a None) = Ok (tr, c)
        /\ todo s = Some []
        /\ log s = Spawned :: (Worked <$> tr) ++ [Joined]
  | Finished =>
      exists fuel tr c,
        work_thread this t fuel (Closure f a None) = Ok (tr, c)
        /\ todo s = Some []
        /\ log s = Spawned :: (Worked <$> tr) ++ [Joined; FutureReturned]
  end.
Proof.
  revert s. apply rtc_ind_r; [|intros s1 s2 _ Hstep IH].
  - split; reflexivity.
  - destruct Hstep as [l fuel tr c Hrun|p e rest l|l|w l]; simpl in *.
    + destruct IH as [_ ->]. exists fuel, tr, c, [], tr. auto.
    + destruct p; simpl in *.
      * destruct IH as [IH _]. discriminate.
      * destruct IH as (fuel & tr & c & done & rest' & Hrun & -> & [= <-] & ->).
        exists fuel, (done ++ e :: rest), c, (done ++ [e]), rest.
        rewrite <- app_assoc, fmap_app. auto.
      * destruct IH as (fuel & tr & c & _ & [= ] & _).
      * destruct IH as (fuel & tr & c & _ & [= ] & _).
    + destruct IH as (fuel & tr & c & done & rest & Hrun & -> & [= <-] & ->).
      rewrite app_nil_r in *. exists fuel, done, c. auto.
    + destruct IH as (fuel & tr & c & Hrun & -> & ->).
      exists fuel, tr, c. simpl. rewrite <- app_assoc. auto.
Qed.

(** C2: the code departs from the claim.  In every interleaving of the
    caller and the thread, when the caller returns the future the thread
    has performed all its events, every invocation, every sleep and
    [set_value], and all of them before [join] returned. *)
Theorem C2_future_returned_after_the_thread_has_finished s :
  rtc (call_step this t f a) call_init s ->
  pc s = Finished ->
  exists fuel tr c,
    work_thread this t fuel (Closure f a None) = Ok (tr, c)
    /\ todo s = Some []
    /\ log s = Spawned :: (Worked <$> tr) ++ [Joined; FutureReturned].
Proof.
  intros Hreach Hpc. apply call_invariant in Hreach.
  rewrite Hpc in Hreach. exact Hreach.
Qed.

(** The thread can always run to its end. *)
Lemma thread_runs p tr : forall l,
  rtc (call_step this t f a) (CallState p (Some tr) l)
      (CallState p (Some []) (l ++ (Worked <$> tr))).
Proof.
  induction tr as [|e tr IH]; intros l.
  - rewrite app_nil_r. apply rtc_refl.
  - eapply rtc_l; [apply step_work|].
    replace (l ++ (Worked <$> e :: tr)) with ((l ++ [Worked e]) ++ (Worked <$> tr))
      by (rewrite <- app_assoc; reflexivity).
    apply IH.
Qed.

(** Every call whose thread ends can return its future. *)
Lemma call_completes fuel tr c :
  work_thread this t fuel (Closure f a None) = Ok (tr, c) ->
  rtc (call_step this t f a) call_init
      (CallState Finished (Some [])
         (Spawned :: (Worked <$> tr) ++ [Joined; FutureReturned])).
Proof.
  intros Hrun.
  eapply rtc_l; [apply (step_spawn _ _ _ _ _ _ _ _ _ Hrun)|].
  eapply rtc_trans; [apply thread_runs|].
  eapply rtc_l; [apply step_join|].
  eapply rtc_l; [apply step_return|].
  simpl. rewrite <- !app_assoc. apply rtc_refl.
Qed.

End OneCall.

(** C9: the three fields that the constructor stores are the fields of the
    object after any number of steps of any number of calls of
    [operator()], in any interleaving. *)
Theorem C9_policy_never_mutated max_retries base_delay backoff_factor cs s :
  rtc sys_step (Sys (C_Tor max_retries base_delay backoff_factor) cs) s ->
  _maxRetries (object s) = max_retries
  /\ _baseDelay (object s) = base_delay
  /\ _backoffFactor (object s) = backoff_factor.
Proof.
  revert s. apply rtc_ind_r; [|intros s1 s2 _ Hstep IH].
  - repeat split.
  - destruct Hstep; exact IH.
Qed.

End ThreadFacts.

(** ** Further properties of a call *)

Section CallFacts.
Context `{DoubleOps}.
Context {T F A : Type} `{EqDecision T}.
Variable invoke : F -> A -> T * F * A.

#[local] Abbreviation fails := (failures invoke).
#[local] Abbreviation result_of := (nth_result invoke).
#[local] Abbreviation args_of := (nth_args invoke).

(** *** The shape of the failed iterations *)

Lemma length_failures this k : forall c f a,
  length (fails this k c f a) = (2 * k)%nat.
Proof.
  induction k as [|k IH]; intros c f a; [reflexivity|].
  rewrite failures_S. simpl. rewrite IH. lia.
Qed.

Lemma failures_lookup_call this k : forall i c f a,
  (i < k)%nat ->
  fails this k c f a !! (2 * i)%nat = Some (Call (args_of i f a) (result_of i f a)).
Proof.
  induction k as [|k IH]; intros i c f a Hi; [lia|].
  rewrite failures_S. destruct i as [|i].
  - reflexivity.
  - replace (2 * S i)%nat with (S (S (2 * i))) by lia. simpl.
    rewrite nth_args_S, nth_result_S. apply IH. lia.
Qed.

Lemma failures_lookup_sleep this k : forall i c f a,
  (i < k)%nat ->
  fails this k c f a !! (2 * i + 1)%nat =
  Some (SleepFor (getDelay this (UInt.to_int (c + Z.of_nat i)))).
Proof.
  induction k as [|k IH]; intros i c f a Hi; [lia|].
  rewrite failures_S. destruct i as [|i].
  - simpl. rewrite Z.add_0_r. reflexivity.
  - replace (2 * S i + 1)%nat with (S (S (2 * i + 1))) by lia.
    change (fails this k (c + 1) (invoke f a).1.2 (invoke f a).2
              !! (2 * i + 1)%nat =
            Some (SleepFor (getDelay this (UInt.to_int (c + Z.of_nat (S i)))))).
    rewrite IH by lia. do 4 f_equal. lia.
Qed.

(** The failed iterations depend on the policy through the delay and the
    factor only. *)
Lemma failures_same_delays this this' k : forall c f a,
  _baseDelay this = _baseDelay this' ->
  _backoffFactor this = _backoffFactor this' ->
  fails this k c f a = fails this' k c f a.
Proof.
  induction k as [|k IH]; intros c f a Hb Hf; [reflexivity|].
  rewrite !failures_S, (IH _ _ _ Hb Hf). unfold getDelay. rewrite Hb, Hf.
  reflexivity.
Qed.

Lemma failures_add this k1 k2 : forall c f a,
  fails this (k1 + k2) c f a =
  fails this k1 c f a ++
  fails this k2 (c + Z.of_nat k1) (after invoke k1 f a).1 (after invoke k1 f a).2.
Proof.
  induction k1 as [|k1 IH]; intros c f a.
  - simpl. rewrite Z.add_0_r. reflexivity.
  - change (S k1 + k2)%nat with (S (k1 + k2)).
    rewrite !failures_S, IH, after_S. simpl.
    replace (c + 1 + Z.of_nat k1) with (c + Z.pos (Pos.of_succ_nat k1)) by lia.
    reflexivity.
Qed.

(** The first invocation that returns the target is unique. *)
Lemma first_match_unique t f a k1 k2 :
  (forall i, (i < k1)%nat -> result_of i f a <> t) -> result_of k1 f a = t ->
  (forall i, (i < k2)%nat -> result_of i f a <> t) -> result_of k2 f a = t ->
  k1 = k2.
Proof.
  intros H1 E1 H2 E2.
  destruct (Nat.lt_trichotomy k1 k2) as [Hlt|[Heq|Hgt]]; [|exact Heq|].
  - exfalso. exact (H2 k1 Hlt E1).
  - exfalso. exact (H1 k2 Hgt E2).
Qed.

(** *** Budgets of zero and one retry *)

(** X1: with [max_retries = 1] a call does exactly what it does with
    [max_retries = 0]: whatever the callable, the target and the arguments,
    the two calls have the same events and the same outcome, and neither
    retries: the callable is invoked once, and what it returned then is the
    only result in the trace. *)
Theorem X1_budget_one_is_budget_zero base_delay backoff_factor t fuel f a :
  (1 <= fuel)%nat ->
  exists tr fut,
    operator_call invoke (C_Tor 0 base_delay backoff_factor) t fuel f a
      = Ok (tr, fut)
    /\ operator_call invoke (C_Tor 1 base_delay backoff_factor) t fuel f a
       = Ok (tr, fut)
    /\ invocations tr = 1%nat
    /\ results tr = [result_of 0 f a]
    /\ fut = Some (result_of 0 f a).
Proof.
  intros Hfuel. destruct fuel as [|fuel]; [lia|].
  unfold operator_call, work_thread. rewrite !do_while_step. cbv zeta.
  change (UInt.incr 0) with 1. simpl func. simpl args. simpl promiseRes.
  rewrite nth_result_0.
  destruct (decide _) as [E|E]; eexists _, _;
    (split; [reflexivity|]); (split; [reflexivity|]);
    split; try split; reflexivity.
Qed.

(** *** What the future tells the caller *)

(** X2: the future of a call holds the target exactly when one of the first
    [max(1, maxRetries)] invocations of the callable returns the target. *)
Theorem X2_future_holds_target_iff_matched this t fuel f a :
  UInt.in_range (_maxRetries this) -> (bound this <= fuel)%nat ->
  exists tr fut, operator_call invoke this t fuel f a = Ok (tr, fut)
    /\ (fut = Some t <->
        exists k, (k < bound this)%nat /\ result_of k f a = t).
Proof.
  intros Hm Hfuel.
  destruct (operator_call_cases invoke this t fuel f a Hm Hfuel)
    as [(k & Hk & _ & Hmatch & ->)|[Hnone ->]]; eexists _, _;
    (split; [reflexivity|]).
  - split; [intros _; exists k; split; assumption|reflexivity].
  - split.
    + intros [= E]. exfalso. apply (Hnone (bound this - 1)%nat); [|exact E].
      pose proof (bound_pos this). lia.
    + intros (k & Hk & E). exfalso. exact (Hnone k Hk E).
Qed.

(** *** Raising the budget *)

(** X3: two policies with the same delay and factor, the second with at
    least as many retries.  The events of the first call before its
    [set_value] are the first events of the second call, and if the first
    call delivers the target the two calls are the same. *)
Theorem X3_larger_budget_extends_the_call
    max_retries max_retries' base_delay backoff_factor t fuel f a :
  UInt.in_range max_retries -> UInt.in_range max_retries' ->
  max_retries <= max_retries' ->
  (bound (C_Tor max_retries' base_delay backoff_factor) <= fuel)%nat ->
  exists tr fut tr' fut' pre v,
    operator_call invoke (C_Tor max_retries base_delay backoff_factor) t fuel f a = Ok (tr, fut)
    /\ operator_call invoke (C_Tor max_retries' base_delay backoff_factor) t fuel f a
       = Ok (tr', fut')
    /\ tr = pre ++ [SetValue v]
    /\ pre `prefix_of` tr'
    /\ (fut = Some t -> tr' = tr /\ fut' = fut).
Proof.
  intros Hm Hm' Hle Hfuel'.
  set (this := C_Tor max_retries base_delay backoff_factor).
  set (this' := C_Tor max_retries' base_delay backoff_factor).
  assert (Hbb : (bound this <= bound this')%nat) by (unfold bound; simpl; lia).
  assert (Hfuel : (bound this <= fuel)%nat) by (fold this' in Hfuel'; lia).
  assert (Hsame : forall k c g x, fails this k c g x = fails this' k c g x)
    by (intros; apply failures_same_delays; reflexivity).
  destruct (operator_call_cases invoke this t fuel f a Hm Hfuel)
    as [(k & Hk & Hfail & Hmatch & ->)|[Hnone ->]].
  - (* the first call matches: so does the second, at the same invocation *)
    assert (Hrun' : operator_call invoke this' t fuel f a =
      Ok (fails this' k 0 f a ++ [Call (args_of k f a) t; SetValue t], Some t)).
    { unfold operator_call.
      rewrite (work_thread_match invoke this' t k) by (assumption || lia).
      reflexivity. }
    rewrite Hrun', <- Hsame.
    eexists _, _, _, _, (fails this k 0 f a ++ [Call (args_of k f a) t]), t.
    split; [reflexivity|]. split; [reflexivity|].
    split; [rewrite <- app_assoc; reflexivity|].
    split; [exists [SetValue t]; rewrite <- app_assoc; reflexivity|].
    intros _. split; reflexivity.
  - (* the first call is exhausted *)
    destruct (operator_call_cases invoke this' t fuel f a Hm' Hfuel')
      as [(k' & Hk' & Hfail' & Hmatch' & ->)|[Hnone' ->]];
      eexists _, _, _, _, (fails this (bound this) 0 f a), _;
      (split; [reflexivity|]); (split; [reflexivity|]);
      (split; [reflexivity|]).
    + assert (Hge : (bound this <= k')%nat).
      { destruct (le_lt_dec (bound this) k') as [Hge|Hlt]; [exact Hge|].
        exfalso. exact (Hnone k' Hlt Hmatch'). }
      split.
      * replace k' with (bound this + (k' - bound this))%nat by lia.
        rewrite failures_add, <- app_assoc, Hsame. eexists. reflexivity.
      * intros [= E]. exfalso. apply (Hnone (bound this - 1)%nat); [|exact E].
        pose proof (bound_pos this). lia.
    + split.
      * replace (bound this') with (bound this + (bound this' - bound this))%nat
          at 1 by lia.
        rewrite failures_add, <- app_assoc, Hsame. eexists. reflexivity.
      * intros [= E]. exfalso. apply (Hnone (bound this - 1)%nat); [|exact E].
        pose proof (bound_pos this). lia.
Qed.

(** *** Invocations and sleeps alternate *)

(** X4: in every call, between two consecutive invocations the thread does
    exactly one thing, a sleep: invocation [i + 1] (if another one follows)
    is event [2i] of the thread, its result differs from the target, event
    [2i + 1] is the sleep of [getDelay] at the counter [i], and event
    [2i + 2] is the next invocation. *)
Theorem X4_one_sleep_between_invocations this t fuel f a :
  UInt.in_range (_maxRetries this) -> (bound this <= fuel)%nat ->
  exists tr fut, operator_call invoke this t fuel f a = Ok (tr, fut)
    /\ forall i, (S i < invocations tr)%nat ->
       exists x r x' r',
         tr !! (2 * i)%nat = Some (Call x r)
         /\ r <> t
         /\ tr !! (2 * i + 1)%nat =
            Some (SleepFor (getDelay this (UInt.to_int (Z.of_nat i))))
         /\ tr !! (2 * i + 2)%nat = Some (Call x' r').
Proof.
  intros Hm Hfuel.
  destruct (operator_call_cases invoke this t fuel f a Hm Hfuel)
    as [(k & Hk & Hfail & Hmatch & ->)|[Hnone ->]]; eexists _, _;
    (split; [reflexivity|]); intros i Hi; unfold invocations in Hi.
  - rewrite results_matched, length_app, length_fmap, length_seq in Hi.
    simpl in Hi. assert (Hik : (i < k)%nat) by lia.
    exists (args_of i f a), (result_of i f a).
    destruct (decide (S i = k)) as [<-|Hne].
    + exists (args_of (S i) f a), t.
      rewrite !lookup_app_l by (rewrite length_failures; lia).
      rewrite failures_lookup_call, failures_lookup_sleep by lia.
      rewrite lookup_app_r by (rewrite length_failures; lia).
      rewrite length_failures.
      replace (2 * i + 2 - 2 * S i)%nat with 0%nat by lia.
      rewrite Z.add_0_l. auto.
    + exists (args_of (S i) f a), (result_of (S i) f a).
      rewrite !lookup_app_l by (rewrite length_failures; lia).
      replace (2 * i + 2)%nat with (2 * S i)%nat by lia.
      rewrite !failures_lookup_call, failures_lookup_sleep by lia.
      rewrite Z.add_0_l. auto.
  - rewrite results_exhausted, length_fmap, length_seq in Hi.
    exists (args_of i f a), (result_of i f a),
           (args_of (S i) f a), (result_of (S i) f a).
    rewrite !lookup_app_l by (rewrite length_failures; lia).
    replace (2 * i + 2)%nat with (2 * S i)%nat by lia.
    rewrite !failures_lookup_call, failures_lookup_sleep by lia.
    rewrite Z.add_0_l. split; [reflexivity|]. split; [apply Hnone; lia|].
    split; reflexivity.
Qed.

(** *** How long the thread sleeps *)

(** X5: for [maxRetries <= 2^31], the thread sleeps once for each
    invocation whose result differs from the target, and sleep number [i]
    (from 0) lasts [getDelay(i)]: the conversion of the counter to [int]
    changes nothing. *)
Theorem X5_sleeps_follow_getDelay this t fuel f a :
  0 <= _maxRetries this <= 2 ^ 31 -> (bound this <= fuel)%nat ->
  exists tr fut, operator_call invoke this t fuel f a = Ok (tr, fut)
    /\ sleeps tr =
       (fun i => getDelay this (Z.of_nat i))
         <$> seq 0 (length (filter (fun r => r <> t) (results tr))).
Proof.
  intros Hm31 Hfuel.
  assert (Hm : UInt.in_range (_maxRetries this))
    by (unfold UInt.in_range, UInt.modulus; lia).
  pose proof (bound_max this) as Hb.
  assert (Hconv : forall n, (n <= bound this)%nat ->
    (fun i => getDelay this (UInt.to_int (0 + Z.of_nat i))) <$> seq 0 n =
    (fun i => getDelay this (Z.of_nat i)) <$> seq 0 n).
  { intros n Hn. apply list_fmap_ext. intros j i Hi.
    apply lookup_seq in Hi as [-> Hi]. simpl. f_equal.
    rewrite Z.add_0_l. apply uint_to_int_small. lia. }
  destruct (operator_call_cases invoke this t fuel f a Hm Hfuel)
    as [(k & Hk & Hfail & Hmatch & ->)|[Hnone ->]]; eexists _, _;
    (split; [reflexivity|]).
  - rewrite sleeps_app, sleeps_failures, app_nil_r, results_matched.
    rewrite filter_app, filter_all
      by (intros r; apply (elem_of_first_results invoke), Hfail).
    rewrite filter_cons_False by (intros N; apply N; reflexivity).
    rewrite filter_nil, app_nil_r, length_fmap, length_seq.
    apply Hconv. lia.
  - rewrite sleeps_app, sleeps_failures, app_nil_r, results_exhausted.
    rewrite filter_all
      by (intros r; apply (elem_of_first_results invoke), Hnone).
    rewrite length_fmap, length_seq. apply Hconv. lia.
Qed.

(** *** The caller and the thread, again *)

Lemma work_thread_total this t f a :
  UInt.in_range (_maxRetries this) ->
  exists tr c,
    work_thread invoke this t (bound this) (Closure f a None) = Ok (tr, c).
Proof.
  intros Hm.
  destruct (first_match_or_none invoke t (bound this) f a)
    as [(k & Hk & Hfail & Hmatch)|Hnone].
  - eexists _, _. apply (work_thread_match invoke this t k); assumption || lia.
  - eexists _, _. apply work_thread_exhaust; assumption || lia.
Qed.

(** Whatever the fuel, a finished thread has ended with [set_value]. *)
Lemma work_thread_ends_with_set_value this t fuel f a tr c :
  UInt.in_range (_maxRetries this) ->
  work_thread invoke this t fuel (Closure f a None) = Ok (tr, c) ->
  exists pre v, tr = pre ++ [SetValue v] /\ promiseRes c = Some v.
Proof.
  intros Hm Hrun.
  apply (work_thread_fuel_le invoke this t fuel (Nat.max fuel (bound this)))
    in Hrun; [|lia].
  destruct (first_match_or_none invoke t (bound this) f a)
    as [(k & Hk & Hfail & Hmatch)|Hnone].
  - rewrite (work_thread_match invoke this t k) in Hrun by (assumption || lia).
    injection Hrun as <- <-.
    exists (fails this k 0 f a ++ [Call (args_of k f a) t]), t.
    rewrite <- app_assoc. split; reflexivity.
  - rewrite work_thread_exhaust in Hrun by (assumption || lia).
    injection Hrun as <- <-. eexists _, _. split; reflexivity.
Qed.

(** X6: a call never gets stuck.  From every state that the caller and the
    thread can reach, in any interleaving, they can go on until
    [operator()] has returned the future. *)
Theorem X6_call_never_stuck this t f a s :
  UInt.in_range (_maxRetries this) ->
  rtc (call_step invoke this t f a) call_init s ->
  exists s', rtc (call_step invoke this t f a) s s' /\ pc s' = Finished.
Proof.
  intros Hm Hreach. pose proof (call_invariant invoke this t f a s Hreach) as Hinv.
  destruct s as [p w l]. destruct p; simpl in Hinv.
  - destruct Hinv as [-> ->].
    destruct (work_thread_total this t f a Hm) as (tr & c & Hrun).
    eexists. split; [exact (call_completes invoke this t f a _ _ _ Hrun)|].
    reflexivity.
  - destruct Hinv as (_ & _ & _ & _ & rest & _ & _ & -> & _).
    eexists. split.
    + eapply rtc_trans; [apply thread_runs|].
      eapply rtc_l; [apply step_join|].
      eapply rtc_l; [apply step_return|]. apply rtc_refl.
    + reflexivity.
  - eexists. split; [apply rtc_once, step_return|reflexivity].
  - eexists. split; [apply rtc_refl|reflexivity].
Qed.

(** X7: when [operator()] returns, the future is ready.  In every
    interleaving the last three things that happened are [set_value] in the
    thread, the return of [join] and the return of the future, and the value
    set is the one that the future holds. *)
Theorem X7_future_ready_on_return this t f a s :
  UInt.in_range (_maxRetries this) ->
  rtc (call_step invoke this t f a) call_init s ->
  pc s = Finished ->
  exists pre v fuel tr,
    log s = pre ++ [Worked (SetValue v); Joined; FutureReturned]
    /\ operator_call invoke this t fuel f a = Ok (tr, Some v).
Proof.
  intros Hm Hreach Hpc.
  pose proof (call_invariant invoke this t f a s Hreach) as Hinv.
  rewrite Hpc in Hinv. destruct Hinv as (fuel & tr & c & Hrun & _ & ->).
  destruct (work_thread_ends_with_set_value this t fuel f a tr c Hm Hrun)
    as (pre & v & -> & Hv).
  exists (Spawned :: (Worked <$> pre)), v, fuel, (pre ++ [SetValue v]).
  split.
  - rewrite fmap_app, <- app_assoc. reflexivity.
  - unfold operator_call. rewrite Hrun. simpl. rewrite Hv. reflexivity.
Qed.

End CallFacts.

(** ** The concrete runs *)

Import Examples.

(** The first scenario of the specification: results 1, 2, 5 and target 5
    give three invocations, sleeps of 100 and 200 ms, and the value 5. *)
Example scenario_match :
  operator_call scripted policy 5 3 [1; 2; 5] tt =
  Ok ([Call tt 1; SleepFor 100; Call tt 2; SleepFor 200; Call tt 5; SetValue 5],
      Some 5).
Proof. reflexivity. Qed.

(** The second scenario: a callable that always returns 1 is invoked three
    times, not four; the thread sleeps 100, 200 and 400 ms, the last time
    after the last invocation. *)
Example scenario_exhaustion :
  operator_call always_one policy 5 3 tt tt = Ok (always_one_trace, Some 1).
Proof. reflexivity. Qed.

(** With [maxRetries = 0] the callable is invoked once and the thread still
    sleeps once. *)
Example scenario_no_retries :
  operator_call always_one (C_Tor 0 100 (2 # 1)) 5 1 tt tt =
  Ok ([Call tt 1; SleepFor 100; SetValue 1], Some 1).
Proof. reflexivity. Qed.

(** The value at exhaustion is the last result, not the first. *)
Example scenario_last_result :
  operator_call scripted policy 5 3 [1; 2; 3] tt =
  Ok ([Call tt 1; SleepFor 100; Call tt 2; SleepFor 200; Call tt 3;
       SleepFor 400; SetValue 3], Some 3).
Proof. reflexivity. Qed.

(** Factors 2, 1 and 1/2 in exact arithmetic: growing, constant and
    decaying delays. *)
Example delays_factor_two :
  map (getDelay policy) [0; 1; 2] = [100; 200; 400].
Proof. reflexivity. Qed.

Example delays_factor_one :
  map (getDelay (C_Tor 3 100 1%Q)) [0; 1; 2] = [100; 100; 100].
Proof. reflexivity. Qed.

Example delays_factor_half :
  map (getDelay (C_Tor 3 100 (1 # 2))) [0; 1; 2] = [100; 50; 25].
Proof. reflexivity. Qed.

(** From 2^31 on the counter reaches [getDelay] as a negative [int]. *)
Example counter_as_int : UInt.to_int (2 ^ 31) = - 2 ^ 31.
Proof. reflexivity. Qed.

(** [maxRetries = 3] and a callable that never returns the target: three
    invocations, not four. *)
Lemma C1_witness :
  exists tr fut, operator_call always_one policy 5 3 tt tt = Ok (tr, fut)
    /\ Z.of_nat (invocations tr) = Z.max 1 3
    /\ (1 <= 3 -> Z.of_nat (invocations tr) <> 3 + 1).
Proof.
  apply (C1_invocations_when_never_matching always_one policy 5 3 tt tt).
  - unfold UInt.in_range, UInt.modulus. simpl. lia.
  - vm_compute. lia.
  - intros n. unfold nth_result. simpl. discriminate.
Defined.

(** The same call: its trace ends with an invocation, a sleep and
    [set_value]. *)
Lemma C3_witness :
  exists tr fut pre x r, operator_call always_one policy 5 3 tt tt = Ok (tr, fut)
    /\ tr = pre ++ [Call x r;
                    SleepFor (getDelay policy (UInt.to_int (Z.max 1 3 - 1)));
                    SetValue r]
    /\ length (sleeps tr) = invocations tr.
Proof.
  apply (C3_sleep_after_last_invocation always_one policy 5 3 tt tt).
  - unfold UInt.in_range, UInt.modulus. simpl. lia.
  - vm_compute. lia.
  - intros n. unfold nth_result. simpl. discriminate.
Defined.

(** [maxRetries = 3] and results 1, 1, 1, 5 for the target 5: the fourth
    invocation is never made. *)
Lemma C6_witness :
  exists tr v, operator_call scripted policy 5 3 [1; 1; 1; 5] tt = Ok (tr, Some v)
    /\ Z.of_nat (invocations tr) = 3
    /\ delivered tr = [v]
    /\ v <> 5.
Proof.
  apply (C6_match_on_invocation_after_the_last scripted policy 5 3 [1; 1; 1; 5] tt).
  - unfold UInt.in_range, UInt.modulus. simpl. lia.
  - simpl. lia.
  - vm_compute. lia.
  - intros [|[|[|i]]] Hi; vm_compute; try discriminate. vm_compute in Hi. lia.
  - reflexivity.
Defined.

(** Results 1, 2, 3 for the target 5. *)
Lemma C4_witness :
  exists tr fut, operator_call scripted policy 5 3 [1; 2; 3] tt = Ok (tr, fut)
    /\ (1 <= invocations tr)%nat
    /\ results tr =
       (fun i => nth_result scripted i [1; 2; 3] tt) <$> seq 0 (invocations tr)
    /\ ((forall r, r ∈ results tr -> r <> 5) ->
        last (results tr) =
          Some (nth_result scripted (invocations tr - 1) [1; 2; 3] tt)
        /\ get fut = Some (nth_result scripted (invocations tr - 1) [1; 2; 3] tt)
        /\ delivered tr = [nth_result scripted (invocations tr - 1) [1; 2; 3] tt])
    /\ ((forall i, (i < bound policy)%nat ->
                   nth_result scripted i [1; 2; 3] tt <> 5) ->
        invocations tr = bound policy
        /\ get fut = Some (nth_result scripted (bound policy - 1) [1; 2; 3] tt)).
Proof.
  apply (C4_exhaustion_delivers_last_result scripted policy 5 3 [1; 2; 3] tt).
  - unfold UInt.in_range, UInt.modulus. simpl. lia.
  - vm_compute. lia.
Defined.

(** Results 1, 2, 5 for the target 5. *)
Lemma C8_witness :
  exists tr fut v, operator_call scripted policy 5 3 [1; 2; 5] tt = Ok (tr, fut)
    /\ delivered tr = [v]
    /\ fut = Some v
    /\ last tr = Some (SetValue v)
    /\ last (results tr) = Some v
    /\ (v = 5 \/ (forall r, r ∈ results tr -> r <> 5))
    /\ (1 <= invocations tr <= bound policy)%nat
    /\ results tr =
       (fun i => nth_result scripted i [1; 2; 5] tt) <$> seq 0 (invocations tr)
    /\ v = nth_result scripted (invocations tr - 1) [1; 2; 5] tt
    /\ (forall i, (i < invocations tr - 1)%nat ->
                  nth_result scripted i [1; 2; 5] tt <> 5)
    /\ (v = 5 \/ (v <> 5 /\ invocations tr = bound policy)).
Proof.
  apply (C8_promise_set_exactly_once scripted policy 5 3 [1; 2; 5] tt).
  - unfold UInt.in_range, UInt.modulus. simpl. lia.
  - vm_compute. lia.
Defined.

(** The loop on results 1, 2, 5 for the target 5. *)
Lemma C10_witness :
  exists tr fr,
    do_while scripted policy 5 3 0 (Closure [1; 2; 5] tt None) = Ok (tr, fr)
    /\ 1 <= Z.of_nat (invocations tr) <= Z.max 1 3
    /\ retryCount fr =
       Z.of_nat (length (filter (fun r => r <> 5) (results tr)))
    /\ (forall i r, (S i < invocations tr)%nat -> results tr !! i = Some r ->
        r <> 5 /\ Z.of_nat (S i) < 3)
    /\ last (results tr) = Some (result fr)
    /\ match exit fr with
       | ByReturn => result fr = 5
       | ByCondition => result fr <> 5 /\ ~ retryCount fr < 3
       end.
Proof.
  apply (C10_retry_loop_terminates scripted policy 5 3 [1; 2; 5] tt).
  - unfold UInt.in_range, UInt.modulus. simpl. lia.
  - vm_compute. lia.
Defined.

(** A callable that takes its argument by reference and increments it
    receives 0, then 1, then 2. *)
Example pre_increment_run :
  operator_call pre_increment policy 3 3 tt 0 =
  Ok ([Call 0 1; SleepFor 100; Call 1 2; SleepFor 200; Call 2 3; SetValue 3],
      Some 3).
Proof. reflexivity. Qed.

(** The claim C7 as stated fails: for [int x = 0] passed to a callable
    [[](int& a) { return ++a; }] with target 3, the second invocation
    receives 1, not the captured 0. *)
Lemma C7_counterexample :
  ~ (forall tr fut,
       operator_call pre_increment policy 3 3 tt 0 = Ok (tr, fut) ->
       forall x, x ∈ received tr -> x = 0).
Proof.
  intros Hall.
  specialize (Hall _ _ pre_increment_run 1).
  assert (Hin : 1 ∈ [0; 1; 2]) by (right; left).
  specialize (Hall Hin). discriminate Hall.
Qed.

(** A callable that takes a vector by value, called with a temporary:
    the first invocation receives the two elements, the retries receive the
    moved-from, empty vector. *)
Example size_by_value_run :
  operator_call size_by_value policy 5 3 tt [7; 8] =
  Ok ([Call [7; 8] 2; SleepFor 100; Call [] 0; SleepFor 200; Call [] 0;
       SleepFor 400; SetValue 0], Some 0).
Proof. reflexivity. Qed.

Lemma C7_witness :
  exists tr fut, operator_call size_by_value policy 5 3 tt [7; 8] = Ok (tr, fut)
    /\ (1 <= invocations tr)%nat
    /\ head (received tr) = Some [7; 8]
    /\ received tr =
       (fun i => nth_args size_by_value i tt [7; 8]) <$> seq 0 (invocations tr).
Proof.
  apply (C7_arguments_received_by_invocations size_by_value policy 5 3 tt [7; 8]).
  - unfold UInt.in_range, UInt.modulus. simpl. lia.
  - vm_compute. lia.
Defined.

(** The caller of the call on [always_one] has its future only after the
    seven events of the thread. *)
Lemma C2_witness :
  exists fuel tr c,
    work_thread always_one policy 5 fuel (Closure tt tt None) = Ok (tr, c)
    /\ todo returned_state = Some []
    /\ log returned_state =
       Spawned :: (Worked <$> tr) ++ [Joined; FutureReturned].
Proof.
  apply (C2_future_returned_after_the_thread_has_finished
           always_one policy 5 tt tt returned_state).
  - apply (call_completes always_one policy 5 tt tt 3 always_one_trace
             (Closure tt tt (Some 1))).
    reflexivity.
  - reflexivity.
Defined.

(** Two calls on one object, one of them with its thread started. *)
Lemma C9_witness :
  _maxRetries (object two_calls) = 3
  /\ _baseDelay (object two_calls) = 100
  /\ _backoffFactor (object two_calls) = 2 # 1.
Proof.
  apply (C9_policy_never_mutated (H := ExactOps) always_one 3 100 (2 # 1) [] two_calls).
  eapply rtc_l; [apply (sys_call always_one _ 5 tt tt)|].
  eapply rtc_l; [apply (sys_call always_one _ 5 tt tt)|].
  eapply rtc_l.
  - eapply (sys_progress always_one _ 1%nat); [reflexivity|].
    apply (step_spawn always_one _ 5 tt tt [] 3 always_one_trace
             (Closure tt tt (Some 1))).
    reflexivity.
  - apply rtc_refl.
Defined.

(** ** The further properties on concrete calls *)

(** Budgets 0 and 1 for a callable that always returns 1. *)
Lemma X1_witness :
  exists tr fut,
    operator_call always_one (C_Tor 0 100 (2 # 1)) 5 1 tt tt = Ok (tr, fut)
    /\ operator_call always_one (C_Tor 1 100 (2 # 1)) 5 1 tt tt = Ok (tr, fut)
    /\ invocations tr = 1%nat
    /\ results tr = [nth_result always_one 0 tt tt]
    /\ fut = Some (nth_result always_one 0 tt tt).
Proof.
  apply (X1_budget_one_is_budget_zero (H := ExactOps)
           always_one 100 (2 # 1) 5 1 tt tt).
  lia.
Defined.

(** Results 1, 2, 5 and the target 5 under [policy]. *)
Lemma X2_witness :
  exists tr fut, operator_call scripted policy 5 3 [1; 2; 5] tt = Ok (tr, fut)
    /\ (fut = Some 5 <->
        exists k, (k < bound policy)%nat
                  /\ nth_result scripted k [1; 2; 5] tt = 5).
Proof.
  apply (X2_future_holds_target_iff_matched scripted policy 5 3 [1; 2; 5] tt).
  - unfold UInt.in_range, UInt.modulus. simpl. lia.
  - vm_compute. lia.
Defined.

(** One retry against three, for the results 1, 2, 5 and the target 5. *)
Lemma X3_witness :
  exists tr fut tr' fut' pre v,
    operator_call scripted (C_Tor 1 100 (2 # 1)) 5 3 [1; 2; 5] tt = Ok (tr, fut)
    /\ operator_call scripted (C_Tor 3 100 (2 # 1)) 5 3 [1; 2; 5] tt
       = Ok (tr', fut')
    /\ tr = pre ++ [SetValue v]
    /\ pre `prefix_of` tr'
    /\ (fut = Some 5 -> tr' = tr /\ fut' = fut).
Proof.
  apply (X3_larger_budget_extends_the_call (H := ExactOps)
           scripted 1 3 100 (2 # 1) 5 3 [1; 2; 5] tt).
  - unfold UInt.in_range, UInt.modulus. lia.
  - unfold UInt.in_range, UInt.modulus. lia.
  - lia.
  - vm_compute. lia.
Defined.

(** The call on [always_one] under [policy]. *)
Lemma X4_witness :
  exists tr fut, operator_call always_one policy 5 3 tt tt = Ok (tr, fut)
    /\ forall i, (S i < invocations tr)%nat ->
       exists x r x' r',
         tr !! (2 * i)%nat = Some (Call x r)
         /\ r <> 5
         /\ tr !! (2 * i + 1)%nat =
            Some (SleepFor (getDelay policy (UInt.to_int (Z.of_nat i))))
         /\ tr !! (2 * i + 2)%nat = Some (Call x' r').
Proof.
  apply (X4_one_sleep_between_invocations always_one policy 5 3 tt tt).
  - unfold UInt.in_range, UInt.modulus. simpl. lia.
  - vm_compute. lia.
Defined.

(** Results 1, 2, 5 and the target 5 under [policy]: two sleeps. *)
Lemma X5_witness :
  exists tr fut, operator_call scripted policy 5 3 [1; 2; 5] tt = Ok (tr, fut)
    /\ sleeps tr =
       (fun i => getDelay policy (Z.of_nat i))
         <$> seq 0 (length (filter (fun r => r <> 5) (results tr))).
Proof.
  apply (X5_sleeps_follow_getDelay scripted policy 5 3 [1; 2; 5] tt).
  - simpl. lia.
  - vm_compute. lia.
Defined.

(** The call on [always_one] when the thread has just been started. *)
Lemma X6_witness :
  exists s',
    rtc (call_step always_one policy 5 tt tt)
        (CallState AtJoin (Some always_one_trace) [Spawned]) s'
    /\ pc s' = Finished.
Proof.
  apply (X6_call_never_stuck always_one policy 5 tt tt).
  - unfold UInt.in_range, UInt.modulus. simpl. lia.
  - eapply rtc_l; [|apply rtc_refl].
    apply (step_spawn always_one policy 5 tt tt [] 3 always_one_trace
             (Closure tt tt (Some 1))).
    reflexivity.
Defined.

(** The same call when the caller has the future. *)
Lemma X7_witness :
  exists pre v fuel tr,
    log returned_state = pre ++ [Worked (SetValue v); Joined; FutureReturned]
    /\ operator_call always_one policy 5 fuel tt tt = Ok (tr, Some v).
Proof.
  apply (X7_future_ready_on_return always_one policy 5 tt tt returned_state).
  - unfold UInt.in_range, UInt.modulus. simpl. lia.
  - apply (call_completes always_one policy 5 tt tt 3 always_one_trace
             (Closure tt tt (Some 1))).
    reflexivity.
  - reflexivity.
Defined.

(** Results 1, 2, 5 and the target 5: the first match is the third
    invocation. *)
Lemma X9_witness :
  exists tr pre x,
    operator_call scripted policy 5 3 [1; 2; 5] tt = Ok (tr, Some 5)
    /\ tr = pre ++ [Call x 5; SetValue 5]
    /\ invocations tr = 3%nat
    /\ sleeps tr =
       (fun i => getDelay policy (UInt.to_int (Z.of_nat i))) <$> seq 0 2.
Proof.
  apply (early_termination scripted policy 5 2 3 [1; 2; 5] tt).
  - unfold UInt.in_range, UInt.modulus. simpl. lia.
  - vm_compute. lia.
  - vm_compute. lia.
  - intros [|[|i]] Hi; vm_compute; try discriminate. lia.
  - reflexivity.
Defined.
